(** * Simple expression parser (simple_parse.c): lexer, recursive-descent
    parser and the three renderers, as a shallow embedding. *)

From Stdlib Require Import List String Ascii Arith Lia Bool.
Import ListNotations.
Open Scope list_scope.
Open Scope string_scope.

(** ** Tokens (struct token, macros LPAREN .. ATOM) *)

Inductive tok_type := LPAREN | RPAREN | EXP | MUL | DIV | ADD | SUB | ATOM.

Definition tok_type_eqb (a b : tok_type) : bool :=
  match a, b with
  | LPAREN, LPAREN | RPAREN, RPAREN | EXP, EXP | MUL, MUL | DIV, DIV
  | ADD, ADD | SUB, SUB | ATOM, ATOM => true
  | _, _ => false
  end.

(** The [prev]/[next] links of the C list are the list structure itself;
    the NULL pointer is the empty list. *)
Record token := mk_token { type : tok_type; tok_string : string }.

(** ** Lexer (input_lexer) *)

(** [isalpha]/[isdigit] of the C locale. *)
Definition isalpha (c : ascii) : bool :=
  let n := nat_of_ascii c in
  (((65 <=? n) && (n <=? 90)) || ((97 <=? n) && (n <=? 122)))%nat.

Definition isdigit (c : ascii) : bool :=
  let n := nat_of_ascii c in ((48 <=? n) && (n <=? 57))%nat.

(** The [switch] of input_lexer on a single character. *)
Definition op_type (c : ascii) : option tok_type :=
  if Ascii.eqb c "(" then Some LPAREN
  else if Ascii.eqb c ")" then Some RPAREN
  else if Ascii.eqb c "^" then Some EXP
  else if Ascii.eqb c "*" then Some MUL
  else if Ascii.eqb c "/" then Some DIV
  else if Ascii.eqb c "+" then Some ADD
  else if Ascii.eqb c "-" then Some SUB
  else None.

(** [while (p( *user_input)) ++user_input;]: the run and the rest. *)
Fixpoint span (p : ascii -> bool) (s : string) : string * string :=
  match s with
  | EmptyString => (EmptyString, EmptyString)
  | String c s' =>
      if p c then let (run, rest) := span p s' in (String c run, rest)
      else (EmptyString, s)
  end.

(** The main loop of input_lexer, up to the terminating NUL. The Rocq string is the
    content of the NUL-terminated C string. [None] is the [default:] branch,
    which prints "Invalid input!" and returns NULL. The [fuel] bounds the
    iterations; each one consumes at least one character, so the length of
    the string is enough (see [lex_loop_ok]). *)
Fixpoint lex_loop (fuel : nat) (s : string) : option (list token) :=
  match s with
  | EmptyString => Some []
  | String c s' =>
      match fuel with
      | O => None
      | S fuel' =>
          if isalpha c then
            let (run, rest) := span isalpha s' in
            option_map (cons (mk_token ATOM (String c run))) (lex_loop fuel' rest)
          else if isdigit c then
            let (run, rest) := span isdigit s' in
            option_map (cons (mk_token ATOM (String c run))) (lex_loop fuel' rest)
          else
            match op_type c with
            | Some ty =>
                option_map (cons (mk_token ty (String c EmptyString))) (lex_loop fuel' s')
            | None => None
            end
      end
  end.

Definition input_lexer (s : string) : option (list token) :=
  lex_loop (String.length s) s.

(** What [main] passes to [expr]: the returned pointer, NULL on error. *)
Definition lexed_input (s : string) : list token :=
  match input_lexer s with Some l => l | None => [] end.

(** ** Parse tree (struct pt_node)

    The node tags NEXPR .. NEPSILON with their child arrays, one constructor
    per tag and child count the parser builds.  A child the parser may store
    as NULL has an [option] type; [NeXPR1]/[NeXPRP1] are the one-child nodes
    whose only child is the epsilon node. *)

Inductive leaf_type := NLPAREN | NRPAREN | NEXP | NMUL | NDIV | NADD | NSUB | NATOM.

Record pt_leaf := mk_leaf { ltype : leaf_type; lstring : string }.

#[warnings="-register-all"]
Inductive expr_node :=
  | NEXPR : exprp_node -> eXPR_node -> expr_node
with eXPR_node :=
  | NeXPR1 : eXPR_node
  | NeXPR3 : pt_leaf -> exprp_node -> eXPR_node -> eXPR_node
with exprp_node :=
  | NEXPRP : option exprpp_node -> eXPRP_node -> exprp_node
with eXPRP_node :=
  | NeXPRP1 : eXPRP_node
  | NeXPRP3 : pt_leaf -> option exprpp_node -> eXPRP_node -> eXPRP_node
with exprpp_node :=
  | NEXPRPP1 : option exprppp_node -> exprpp_node
  | NEXPRPP3 : option exprppp_node -> option pt_leaf -> option exprpp_node -> exprpp_node
with exprppp_node :=
  | NEXPRPPP1 : pt_leaf -> exprppp_node
  | NEXPRPPP3 : option pt_leaf -> expr_node -> option pt_leaf -> exprppp_node.

(** ** Parser

    The cursor [*lexed_in_ptr] is threaded as state.  [None] of the monad
    means only that the fuel ran out; NULL results of the C functions are
    the [None] of the node types. *)

Definition PM (A : Type) : Type := list token -> option (A * list token).

Definition retP {A} (a : A) : PM A := fun ts => Some (a, ts).

Definition bindP {A B} (m : PM A) (k : A -> PM B) : PM B :=
  fun ts => match m ts with Some (a, ts') => k a ts' | None => None end.

Notation "x <- m ;; k" := (bindP m (fun x => k)) (at level 61, m at next level, right associativity).

(** lparen, rparen, expo, mul, quo, add, sub, atom: on NULL return NULL
    without moving; on a match build the leaf and advance; otherwise print,
    advance and return NULL. *)
Definition match_leaf (ty : tok_type) (nt : leaf_type) : PM (option pt_leaf) :=
  fun ts =>
    match ts with
    | [] => Some (None, [])
    | t :: ts' =>
        if tok_type_eqb (type t) ty then Some (Some (mk_leaf nt (tok_string t)), ts')
        else Some (None, ts')
    end.

Definition lparen := match_leaf LPAREN NLPAREN.
Definition rparen := match_leaf RPAREN NRPAREN.
Definition expo := match_leaf EXP NEXP.

(** The lookahead of exprpp: [while (lookahead != NULL &&
    lookahead->type != RPAREN) lookahead = lookahead->next;] *)
Fixpoint skip_to_rparen (ts : list token) : list token :=
  match ts with
  | [] => []
  | t :: ts' => if tok_type_eqb (type t) RPAREN then ts else skip_to_rparen ts'
  end.

(** [p != NULL && p->type == EXP] *)
Definition starts_with_exp (ts : list token) : bool :=
  match ts with t :: _ => tok_type_eqb (type t) EXP | [] => false end.

Fixpoint expr (n : nat) : PM expr_node :=
  match n with
  | O => fun _ => None
  | S n' =>
      c0 <- exprp n' ;;
      c1 <- Expr n' ;;
      retP (NEXPR c0 c1)
  end
with Expr (n : nat) : PM eXPR_node :=
  match n with
  | O => fun _ => None
  | S n' => fun ts =>
      match ts with
      | [] => Some (NeXPR1, [])
      | t :: ts' =>
          match type t with
          | ADD | SUB =>
              (* add()/sub() succeed: the token type has just been tested *)
              let op := mk_leaf (if tok_type_eqb (type t) ADD then NADD else NSUB)
                                (tok_string t) in
              (c1 <- exprp n' ;; c2 <- Expr n' ;; retP (NeXPR3 op c1 c2)) ts'
          | _ => Some (NeXPR1, ts)
          end
      end
  end
with exprp (n : nat) : PM exprp_node :=
  match n with
  | O => fun _ => None
  | S n' =>
      c0 <- exprpp n' ;;
      c1 <- Exprp n' ;;
      retP (NEXPRP c0 c1)
  end
with Exprp (n : nat) : PM eXPRP_node :=
  match n with
  | O => fun _ => None
  | S n' => fun ts =>
      match ts with
      | [] => Some (NeXPRP1, [])
      | t :: ts' =>
          match type t with
          | MUL | DIV =>
              let op := mk_leaf (if tok_type_eqb (type t) MUL then NMUL else NDIV)
                                (tok_string t) in
              (c1 <- exprpp n' ;; c2 <- Exprp n' ;; retP (NeXPRP3 op c1 c2)) ts'
          | _ => Some (NeXPRP1, ts)
          end
      end
  end
with exprpp (n : nat) : PM (option exprpp_node) :=
  match n with
  | O => fun _ => None
  | S n' => fun ts =>
      match ts with
      | [] => Some (None, [])
      | t :: ts' =>
          let three :=
            (c0 <- exprppp n' ;; c1 <- expo ;; c2 <- exprpp n' ;;
             retP (Some (NEXPRPP3 c0 c1 c2))) in
          let one := (c0 <- exprppp n' ;; retP (Some (NEXPRPP1 c0))) in
          if tok_type_eqb (type t) ATOM then
            if starts_with_exp ts' then three ts else one ts
          else
            match skip_to_rparen ts with
            | [] => Some (None, ts)          (* "Invalid input!" *)
            | _ :: after => if starts_with_exp after then three ts else one ts
            end
      end
  end
with exprppp (n : nat) : PM (option exprppp_node) :=
  match n with
  | O => fun _ => None
  | S n' => fun ts =>
      match ts with
      | [] => Some (None, [])
      | t :: ts' =>
          if tok_type_eqb (type t) ATOM then
            Some (Some (NEXPRPPP1 (mk_leaf NATOM (tok_string t))), ts')
          else
            (c0 <- lparen ;; c1 <- expr n' ;; c2 <- rparen ;;
             retP (Some (NEXPRPPP3 c0 c1 c2))) ts
      end
  end.

(** Enough fuel for [expr] on a cursor of [List.length ts] tokens
    (see [expr_total]). *)
Definition expr_fuel (ts : list token) : nat := 4 * List.length ts + 4.

(** [head = expr(&lexed_input)]: the tree and the final cursor. *)
Definition parse (ts : list token) : option (expr_node * list token) :=
  expr (expr_fuel ts) ts.

(** ** Renderers *)

(** [while (dummy->num_childs == 3) result = concat(result, "(");] *)
Fixpoint opens_E (d : eXPR_node) : string :=
  match d with NeXPR1 => "" | NeXPR3 _ _ d' => "(" ++ opens_E d' end.

Fixpoint opens_P (d : eXPRP_node) : string :=
  match d with NeXPRP1 => "" | NeXPRP3 _ _ d' => "(" ++ opens_P d' end.

(** pre_compl_par, one function per node kind; a NULL child
    ([head == NULL]) renders as "". *)
Fixpoint pcp_expr (e : expr_node) : string :=
  match e with
  | NEXPR c0 (NeXPR3 op c1 c2) =>
      pcp_loop_E ("(" ++ opens_E c2 ++ pcp_exprp c0 ++ lstring op ++ pcp_exprp c1 ++ ")") c2
  | NEXPR c0 NeXPR1 => pcp_exprp c0
  end
with pcp_loop_E (acc : string) (d : eXPR_node) {struct d} : string :=
  match d with
  | NeXPR1 => acc
  | NeXPR3 op c1 d' => pcp_loop_E (acc ++ lstring op ++ pcp_exprp c1 ++ ")") d'
  end
with pcp_exprp (e : exprp_node) : string :=
  match e with
  | NEXPRP c0 (NeXPRP3 op c1 c2) =>
      pcp_loop_P ("(" ++ opens_P c2
                  ++ match c0 with Some p => pcp_exprpp p | None => "" end
                  ++ lstring op
                  ++ match c1 with Some p => pcp_exprpp p | None => "" end ++ ")") c2
  | NEXPRP c0 NeXPRP1 => match c0 with Some p => pcp_exprpp p | None => "" end
  end
with pcp_loop_P (acc : string) (d : eXPRP_node) {struct d} : string :=
  match d with
  | NeXPRP1 => acc
  | NeXPRP3 op c1 d' =>
      pcp_loop_P (acc ++ lstring op
                  ++ match c1 with Some p => pcp_exprpp p | None => "" end ++ ")") d'
  end
with pcp_exprpp (p : exprpp_node) : string :=
  match p with
  | NEXPRPP3 c0 _ c2 =>
      "(" ++ match c0 with Some q => pcp_exprppp q | None => "" end
      ++ "^" ++ match c2 with Some p' => pcp_exprpp p' | None => "" end ++ ")"
  | NEXPRPP1 c0 => match c0 with Some q => pcp_exprppp q | None => "" end
  end
with pcp_exprppp (q : exprppp_node) : string :=
  match q with
  | NEXPRPPP1 a => lstring a
  | NEXPRPPP3 _ e _ => pcp_expr e
  end.

(** strip_parens: when the string starts with '(', the last character is
    overwritten by NUL and the copy starts after the '('. *)
Fixpoint drop_last (s : string) : string :=
  match s with
  | EmptyString => EmptyString
  | String _ EmptyString => EmptyString
  | String c s' => String c (drop_last s')
  end.

Definition strip_parens (s : string) : string :=
  match s with
  | String "(" rest => drop_last rest
  | _ => s
  end.

Definition compl_par (e : expr_node) : string := strip_parens (pcp_expr e).

(** postfix *)
Fixpoint postfix_expr (e : expr_node) : string :=
  match e with
  | NEXPR c0 (NeXPR3 op c1 c2) =>
      postfix_loop_E (postfix_exprp c0 ++ postfix_exprp c1 ++ (lstring op ++ " ")) c2
  | NEXPR c0 NeXPR1 => postfix_exprp c0
  end
with postfix_loop_E (acc : string) (d : eXPR_node) {struct d} : string :=
  match d with
  | NeXPR1 => acc
  | NeXPR3 op c1 d' => postfix_loop_E (acc ++ postfix_exprp c1 ++ (lstring op ++ " ")) d'
  end
with postfix_exprp (e : exprp_node) : string :=
  match e with
  | NEXPRP c0 (NeXPRP3 op c1 c2) =>
      postfix_loop_P (match c0 with Some p => postfix_exprpp p | None => "" end
                      ++ match c1 with Some p => postfix_exprpp p | None => "" end
                      ++ (lstring op ++ " ")) c2
  | NEXPRP c0 NeXPRP1 => match c0 with Some p => postfix_exprpp p | None => "" end
  end
with postfix_loop_P (acc : string) (d : eXPRP_node) {struct d} : string :=
  match d with
  | NeXPRP1 => acc
  | NeXPRP3 op c1 d' =>
      postfix_loop_P (acc ++ match c1 with Some p => postfix_exprpp p | None => "" end
                          ++ (lstring op ++ " ")) d'
  end
with postfix_exprpp (p : exprpp_node) : string :=
  match p with
  | NEXPRPP3 c0 _ c2 =>
      match c0 with Some q => postfix_exprppp q | None => "" end
      ++ match c2 with Some p' => postfix_exprpp p' | None => "" end ++ "^ "
  | NEXPRPP1 c0 => match c0 with Some q => postfix_exprppp q | None => "" end
  end
with postfix_exprppp (q : exprppp_node) : string :=
  match q with
  | NEXPRPPP1 a => lstring a ++ " "
  | NEXPRPPP3 _ e _ => postfix_expr e
  end.

Definition postfix (e : expr_node) : string := postfix_expr e.

(** prefix: the loop prepends each further operator to the result. *)
Fixpoint prefix_expr (e : expr_node) : string :=
  match e with
  | NEXPR c0 (NeXPR3 op c1 c2) =>
      prefix_loop_E ((lstring op ++ " ") ++ prefix_exprp c0 ++ prefix_exprp c1) c2
  | NEXPR c0 NeXPR1 => prefix_exprp c0
  end
with prefix_loop_E (acc : string) (d : eXPR_node) {struct d} : string :=
  match d with
  | NeXPR1 => acc
  | NeXPR3 op c1 d' => prefix_loop_E (((lstring op ++ " ") ++ acc) ++ prefix_exprp c1) d'
  end
with prefix_exprp (e : exprp_node) : string :=
  match e with
  | NEXPRP c0 (NeXPRP3 op c1 c2) =>
      prefix_loop_P ((lstring op ++ " ")
                     ++ match c0 with Some p => prefix_exprpp p | None => "" end
                     ++ match c1 with Some p => prefix_exprpp p | None => "" end) c2
  | NEXPRP c0 NeXPRP1 => match c0 with Some p => prefix_exprpp p | None => "" end
  end
with prefix_loop_P (acc : string) (d : eXPRP_node) {struct d} : string :=
  match d with
  | NeXPRP1 => acc
  | NeXPRP3 op c1 d' =>
      prefix_loop_P (((lstring op ++ " ") ++ acc)
                     ++ match c1 with Some p => prefix_exprpp p | None => "" end) d'
  end
with prefix_exprpp (p : exprpp_node) : string :=
  match p with
  | NEXPRPP3 c0 _ c2 =>
      "^ " ++ match c0 with Some q => prefix_exprppp q | None => "" end
      ++ match c2 with Some p' => prefix_exprpp p' | None => "" end
  | NEXPRPP1 c0 => match c0 with Some q => prefix_exprppp q | None => "" end
  end
with prefix_exprppp (q : exprppp_node) : string :=
  match q with
  | NEXPRPPP1 a => lstring a ++ " "
  | NEXPRPPP3 _ e _ => prefix_expr e
  end.

Definition prefix (e : expr_node) : string := prefix_expr e.

(** The tree main builds from a line of input. *)
Definition tree_of (s : string) : expr_node :=
  match parse (lexed_input s) with
  | Some (e, _) => e
  | None => NEXPR (NEXPRP None NeXPRP1) NeXPR1
  end.

(** ** Nullness of the parse tree: [true] when no child is NULL. *)
Definition leaf_present (l : option pt_leaf) : bool :=
  match l with Some _ => true | None => false end.

Fixpoint nonnull_expr (e : expr_node) : bool :=
  match e with NEXPR c0 c1 => nonnull_exprp c0 && nonnull_E c1 end
with nonnull_E (d : eXPR_node) : bool :=
  match d with NeXPR1 => true | NeXPR3 _ c1 d' => nonnull_exprp c1 && nonnull_E d' end
with nonnull_exprp (e : exprp_node) : bool :=
  match e with
  | NEXPRP c0 c1 =>
      match c0 with Some p => nonnull_exprpp p | None => false end && nonnull_P c1
  end
with nonnull_P (d : eXPRP_node) : bool :=
  match d with
  | NeXPRP1 => true
  | NeXPRP3 _ c1 d' =>
      match c1 with Some p => nonnull_exprpp p | None => false end && nonnull_P d'
  end
with nonnull_exprpp (p : exprpp_node) : bool :=
  match p with
  | NEXPRPP1 c0 => match c0 with Some q => nonnull_exprppp q | None => false end
  | NEXPRPP3 c0 c1 c2 =>
      match c0 with Some q => nonnull_exprppp q | None => false end
      && leaf_present c1
      && match c2 with Some p' => nonnull_exprpp p' | None => false end
  end
with nonnull_exprppp (q : exprppp_node) : bool :=
  match q with
  | NEXPRPPP1 _ => true
  | NEXPRPPP3 c0 e c2 => leaf_present c0 && nonnull_expr e && leaf_present c2
  end.

(** ** Termination of the parser *)

Definition runs {A} (m : PM A) (ts : list token) : Prop :=
  exists a ts', m ts = Some (a, ts') /\ List.length ts' <= List.length ts.

Definition runs_consuming {A} (m : PM A) (ts : list token) : Prop :=
  exists a ts', m ts = Some (a, ts') /\ List.length ts' <= List.length ts
                /\ (ts <> [] -> List.length ts' < List.length ts).

Lemma match_leaf_step ty nt t ts :
  exists x, match_leaf ty nt (t :: ts) = Some (x, ts).
Proof.
  unfold match_leaf; destruct (tok_type_eqb (type t) ty); eauto.
Qed.

Lemma match_leaf_runs ty nt ts : runs (match_leaf ty nt) ts.
Proof.
  destruct ts as [|t ts]; [exists None, []; simpl; auto|].
  destruct (match_leaf_step ty nt t ts) as [x Hx]; exists x, ts.
  split; [exact Hx|simpl; lia].
Qed.

Lemma expo_runs ts : runs expo ts.
Proof. apply match_leaf_runs. Qed.

Lemma rparen_runs ts : runs rparen ts.
Proof. apply match_leaf_runs. Qed.

Ltac run_with H nts :=
  let a := fresh "a" in let E := fresh "E" in let L := fresh "L" in
  destruct H as (a & nts & E & L); rewrite E.

Ltac close_run := do 2 eexists; split; [reflexivity|simpl in *; lia].

Lemma fuel_enough : forall n,
  (forall ts, 4 * List.length ts + 4 <= n -> runs (expr n) ts) /\
  (forall ts, 4 * List.length ts + 3 <= n -> runs (Expr n) ts) /\
  (forall ts, 4 * List.length ts + 3 <= n -> runs (exprp n) ts) /\
  (forall ts, 4 * List.length ts + 2 <= n -> runs (Exprp n) ts) /\
  (forall ts, 4 * List.length ts + 2 <= n -> runs (exprpp n) ts) /\
  (forall ts, 4 * List.length ts + 1 <= n -> runs_consuming (exprppp n) ts).
Proof.
  induction n as [|n IH]; [repeat split; intros; lia|].
  destruct IH as (He & HE & Hp & HP & Hpp & Hppp).
  repeat split.
  - intros ts H; unfold runs; simpl; unfold bindP, retP.
    run_with (Hp ts ltac:(lia)) ts1.
    run_with (HE ts1 ltac:(lia)) ts2.
    close_run.
  - intros ts H; unfold runs, runs_consuming; destruct ts as [|t ts'].
    + close_run.
    + simpl in H |- *.
      destruct (type t);
        try (close_run);
        unfold bindP, retP;
        run_with (Hp ts' ltac:(lia)) ts1;
        run_with (HE ts1 ltac:(lia)) ts2;
        close_run.
  - intros ts H; unfold runs; simpl; unfold bindP, retP.
    run_with (Hpp ts ltac:(lia)) ts1.
    run_with (HP ts1 ltac:(lia)) ts2.
    close_run.
  - intros ts H; unfold runs, runs_consuming; destruct ts as [|t ts'].
    + close_run.
    + simpl in H |- *.
      destruct (type t);
        try (close_run);
        unfold bindP, retP;
        run_with (Hpp ts' ltac:(lia)) ts1;
        run_with (HP ts1 ltac:(lia)) ts2;
        close_run.
  - intros ts H; unfold runs, runs_consuming; destruct ts as [|t ts'].
    + close_run.
    + assert (Hthree : runs (c0 <- exprppp n ;; c1 <- expo ;; c2 <- exprpp n ;;
                             retP (Some (NEXPRPP3 c0 c1 c2))) (t :: ts')).
      { unfold runs, bindP, retP.
        destruct (Hppp (t :: ts') ltac:(lia)) as (a & ts1 & E1 & L1 & S1).
        rewrite E1.
        specialize (S1 ltac:(discriminate)).
        run_with (expo_runs ts1) ts2.
        run_with (Hpp ts2 ltac:(simpl in *; lia)) ts3.
        close_run. }
      assert (Hone : runs (c0 <- exprppp n ;; retP (Some (NEXPRPP1 c0))) (t :: ts')).
      { unfold runs, bindP, retP.
        destruct (Hppp (t :: ts') ltac:(lia)) as (a & ts1 & E1 & L1 & S1).
        rewrite E1. close_run. }
      simpl.
      destruct (tok_type_eqb (type t) ATOM).
      * destruct (starts_with_exp ts'); [exact Hthree|exact Hone].
      * match goal with
        | |- context [match ?la with [] => _ | _ :: _ => _ end] => destruct la as [|r after]
        end.
        -- close_run.
        -- destruct (starts_with_exp after); [exact Hthree|exact Hone].
  - intros ts H; unfold runs, runs_consuming; destruct ts as [|t ts'].
    + exists None, []; simpl; repeat split; [lia|congruence].
    + simpl in H |- *.
      destruct (tok_type_eqb (type t) ATOM).
      * do 2 eexists; repeat split; [simpl; lia|intros; simpl; lia].
      * unfold bindP, retP.
        destruct (match_leaf_step LPAREN NLPAREN t ts') as [x Hx].
        fold lparen in Hx; rewrite Hx.
        run_with (He ts' ltac:(lia)) ts1.
        run_with (rparen_runs ts1) ts2.
        do 2 eexists; repeat split; [simpl; lia|intros; simpl; lia].
Qed.

(** ** The lexer contract *)

Fixpoint all_chars (p : ascii -> bool) (s : string) : bool :=
  match s with EmptyString => true | String c s' => p c && all_chars p s' end.

(** A letter, a digit or one of [()^*/+-]. *)
Definition valid_char (c : ascii) : bool :=
  isalpha c || isdigit c || match op_type c with Some _ => true | None => false end.

Definition lexemes (ts : list token) : string :=
  fold_right (fun t acc => tok_string t ++ acc) "" ts.

(** An Atom is a non-empty run of letters or of digits; any other token is
    the one character whose [switch] case gives its type. *)
Definition tok_wf (t : token) : Prop :=
  match type t with
  | ATOM => tok_string t <> "" /\
            (all_chars isalpha (tok_string t) = true \/ all_chars isdigit (tok_string t) = true)
  | ty => exists c, tok_string t = String c "" /\ op_type c = Some ty
  end.

Definition first_is (p : ascii -> bool) (t : token) : bool :=
  match tok_string t with String c _ => p c | EmptyString => false end.

(** Two atoms of the same class (letters or digits). *)
Definition same_class (t1 t2 : token) : bool :=
  tok_type_eqb (type t1) ATOM && tok_type_eqb (type t2) ATOM &&
  ((first_is isalpha t1 && first_is isalpha t2) || (first_is isdigit t1 && first_is isdigit t2)).

(** Maximal munch: no atom is directly followed by an atom of its class. *)
Fixpoint atoms_maximal (ts : list token) : bool :=
  match ts with
  | t1 :: ((t2 :: _) as rest) => negb (same_class t1 t2) && atoms_maximal rest
  | _ => true
  end.

Lemma str_app_assoc (a b c : string) : (a ++ b) ++ c = a ++ (b ++ c).
Proof. induction a; simpl; congruence. Qed.


Lemma all_chars_app p a b : all_chars p (a ++ b) = all_chars p a && all_chars p b.
Proof. induction a; simpl; [reflexivity|rewrite IHa; apply andb_assoc]. Qed.

Lemma all_chars_impl (p q : ascii -> bool) s :
  (forall c, p c = true -> q c = true) -> all_chars p s = true -> all_chars q s = true.
Proof.
  intros Hpq; induction s; simpl; auto.
  intros H; apply andb_true_iff in H as [H1 H2]; rewrite (Hpq _ H1); auto.
Qed.

Lemma span_spec p s run rest :
  span p s = (run, rest) ->
  s = run ++ rest /\ all_chars p run = true /\
  match rest with String d _ => p d = false | EmptyString => True end /\
  String.length rest <= String.length s.
Proof.
  revert run rest; induction s as [|c s IH]; intros run rest H; simpl in H.
  - inversion H; subst; simpl; auto.
  - destruct (p c) eqn:Hc.
    + destruct (span p s) as [r0 t0] eqn:Hs; inversion H; subst.
      destruct (IH _ _ eq_refl) as (-> & Ha & Hd & Hl).
      simpl; rewrite Hc, Ha; repeat split; auto; lia.
    + inversion H; subst; simpl; auto.
Qed.

Lemma alpha_not_digit c : isalpha c = true -> isdigit c = false.
Proof.
  unfold isalpha, isdigit; intros H.
  destruct (Nat.leb_spec 48 (nat_of_ascii c)), (Nat.leb_spec (nat_of_ascii c) 57),
           (Nat.leb_spec 65 (nat_of_ascii c)), (Nat.leb_spec (nat_of_ascii c) 90),
           (Nat.leb_spec 97 (nat_of_ascii c)), (Nat.leb_spec (nat_of_ascii c) 122);
    simpl in *; try discriminate; lia.
Qed.

Lemma alpha_valid c : isalpha c = true -> valid_char c = true.
Proof. unfold valid_char; intros ->; reflexivity. Qed.

Lemma digit_valid c : isdigit c = true -> valid_char c = true.
Proof. unfold valid_char; intros ->; rewrite orb_true_r; reflexivity. Qed.

(** A token list spelling a non-empty string starts with a token whose
    lexeme starts with that string's first character. *)
Lemma lexemes_head ts d r :
  lexemes ts = String d r -> Forall tok_wf ts ->
  exists t ts', ts = t :: ts' /\ exists r', tok_string t = String d r'.
Proof.
  induction ts as [|t ts IH]; simpl; [discriminate|].
  intros H Hwf; inversion Hwf as [|? ? Ht Hts]; subst.
  exists t, ts; split; [reflexivity|].
  destruct (tok_string t) as [|c r0] eqn:Hs.
  - exfalso; unfold tok_wf in Ht; rewrite Hs in Ht.
    destruct (type t); firstorder discriminate.
  - simpl in H; inversion H; subst; eauto.
Qed.

Lemma lexemes_nil ts : lexemes ts = "" -> Forall tok_wf ts -> ts = [].
Proof.
  destruct ts as [|t ts]; [reflexivity|]; simpl; intros H Hwf.
  inversion Hwf as [|? ? Ht Hts]; subst.
  destruct (tok_string t) eqn:Hs; [|discriminate].
  unfold tok_wf in Ht; rewrite Hs in Ht; destruct (type t); firstorder discriminate.
Qed.

Definition lex_ok (s : string) (r : option (list token)) : Prop :=
  match r with
  | Some ts => all_chars valid_char s = true /\ lexemes ts = s /\ Forall tok_wf ts /\
               atoms_maximal ts = true
  | None => all_chars valid_char s = false
  end.

Lemma op_type_not_atom c : op_type c <> Some ATOM.
Proof.
  unfold op_type; repeat match goal with |- context [if ?b then _ else _] => destruct b end;
    discriminate.
Qed.

Lemma op_valid c ty : op_type c = Some ty -> valid_char c = true.
Proof. unfold valid_char; intros ->; rewrite !orb_true_r; reflexivity. Qed.

Lemma atom_run_wf (p : ascii -> bool) c run :
  (p = isalpha \/ p = isdigit) -> p c = true -> all_chars p run = true ->
  tok_wf (mk_token ATOM (String c run)).
Proof.
  intros Hp Hc Hrun; unfold tok_wf; simpl; split; [discriminate|].
  destruct Hp; subst; [left|right]; simpl; rewrite Hc, Hrun; reflexivity.
Qed.

Lemma lex_loop_ok : forall fuel s, String.length s <= fuel -> lex_ok s (lex_loop fuel s).
Proof.
  induction fuel as [|f IH]; intros s Hl.
  - destruct s; simpl in Hl; [|lia]; simpl; repeat split; constructor.
  - destruct s as [|c s']; [simpl; repeat split; constructor|].
    simpl in Hl; cbn [lex_loop].
    destruct (isalpha c) eqn:Ha; [|destruct (isdigit c) eqn:Hdg].
    + destruct (span isalpha s') as [run rest] eqn:Hsp.
      destruct (span_spec _ _ _ _ Hsp) as (Hs & Hrun & Hd & Hlen); subst s'.
      specialize (IH rest ltac:(lia)).
      destruct (lex_loop f rest) as [ts|] eqn:Hlx; simpl in IH |- *.
      * destruct IH as (Hv & Hlex & Hwf & Hmax).
        rewrite alpha_valid by exact Ha; rewrite all_chars_app, Hv.
        rewrite (all_chars_impl isalpha valid_char run alpha_valid Hrun).
        split; [reflexivity|]; split; [rewrite Hlex; reflexivity|].
        split; [constructor; [apply (atom_run_wf isalpha); auto|exact Hwf]|].
        destruct rest as [|d r].
        -- rewrite (lexemes_nil ts Hlex Hwf); reflexivity.
        -- destruct (lexemes_head ts d r Hlex Hwf) as (t & ts' & -> & r' & Ht).
           change (negb (same_class (mk_token ATOM (String c run)) t) && atoms_maximal (t :: ts') = true).
           rewrite Hmax, andb_true_r.
           unfold same_class, first_is; simpl; rewrite Ht, Ha, Hd, (alpha_not_digit c Ha).
           destruct (tok_type_eqb (type t) ATOM); reflexivity.
      * rewrite all_chars_app, IH, !andb_false_r; reflexivity.
    + destruct (span isdigit s') as [run rest] eqn:Hsp.
      destruct (span_spec _ _ _ _ Hsp) as (Hs & Hrun & Hd & Hlen); subst s'.
      specialize (IH rest ltac:(lia)).
      destruct (lex_loop f rest) as [ts|] eqn:Hlx; simpl in IH |- *.
      * destruct IH as (Hv & Hlex & Hwf & Hmax).
        rewrite digit_valid by exact Hdg; rewrite all_chars_app, Hv.
        rewrite (all_chars_impl isdigit valid_char run digit_valid Hrun).
        split; [reflexivity|]; split; [rewrite Hlex; reflexivity|].
        split; [constructor; [apply (atom_run_wf isdigit); auto|exact Hwf]|].
        destruct rest as [|d r].
        -- rewrite (lexemes_nil ts Hlex Hwf); reflexivity.
        -- destruct (lexemes_head ts d r Hlex Hwf) as (t & ts' & -> & r' & Ht).
           change (negb (same_class (mk_token ATOM (String c run)) t) && atoms_maximal (t :: ts') = true).
           rewrite Hmax, andb_true_r.
           unfold same_class, first_is; simpl; rewrite Ht, Ha, Hd.
           destruct (tok_type_eqb (type t) ATOM); simpl; rewrite ?andb_false_r; reflexivity.
      * rewrite all_chars_app, IH, !andb_false_r; reflexivity.
    + destruct (op_type c) as [ty|] eqn:Ho.
      * specialize (IH s' ltac:(lia)).
        destruct (lex_loop f s') as [ts|] eqn:Hlx; simpl in IH |- *.
        -- destruct IH as (Hv & Hlex & Hwf & Hmax).
           rewrite (op_valid c ty Ho), Hv.
           split; [reflexivity|]; split; [rewrite Hlex; reflexivity|].
           assert (Hty : ty <> ATOM) by (intros ->; exact (op_type_not_atom c Ho)).
           split.
           ++ constructor; [|exact Hwf].
              unfold tok_wf; simpl; destruct ty; try (exists c; split; auto); congruence.
           ++ destruct ts as [|t ts']; [reflexivity|].
              change (negb (same_class (mk_token ty (String c "")) t) && atoms_maximal (t :: ts') = true).
              rewrite Hmax, andb_true_r.
              unfold same_class; simpl; destruct ty; try reflexivity; congruence.
        -- rewrite IH, andb_false_r; reflexivity.
      * simpl; unfold valid_char; rewrite Ha, Hdg, Ho; reflexivity.
Qed.

(** ** The wrapping pair of pre_compl_par *)

Lemma drop_last_close x : drop_last (x ++ ")") = x.
Proof.
  induction x as [|c x IH]; [reflexivity|].
  simpl; remember (x ++ ")") as y eqn:Hy; destruct y as [|d y].
  - destruct x; discriminate.
  - rewrite <- IH; reflexivity.
Qed.

Lemma strip_parens_wrapped x : strip_parens ("(" ++ x ++ ")") = x.
Proof. simpl; apply drop_last_close. Qed.

Lemma pcp_loop_E_close : forall d acc, exists z, pcp_loop_E (acc ++ ")") d = acc ++ z ++ ")".
Proof.
  induction d as [|op c1 d IH]; intros acc; [exists ""; reflexivity|].
  simpl.
  set (X := lstring op ++ pcp_exprp c1).
  replace ((acc ++ ")") ++ lstring op ++ pcp_exprp c1 ++ ")") with ((acc ++ ")" ++ X) ++ ")")
    by (unfold X; rewrite !str_app_assoc; reflexivity).
  destruct (IH (acc ++ ")" ++ X)) as [z ->].
  exists (")" ++ X ++ z); rewrite !str_app_assoc; reflexivity.
Qed.

Lemma pcp_loop_P_close : forall d acc, exists z, pcp_loop_P (acc ++ ")") d = acc ++ z ++ ")".
Proof.
  induction d as [|op c1 d IH]; intros acc; [exists ""; reflexivity|].
  simpl.
  set (X := lstring op ++ match c1 with Some p => pcp_exprpp p | None => "" end).
  replace ((acc ++ ")") ++ lstring op ++ match c1 with Some p => pcp_exprpp p | None => "" end ++ ")")
    with ((acc ++ ")" ++ X) ++ ")")
    by (unfold X; rewrite !str_app_assoc; reflexivity).
  destruct (IH (acc ++ ")" ++ X)) as [z ->].
  exists (")" ++ X ++ z); rewrite !str_app_assoc; reflexivity.
Qed.

(** Every token sequence yields a tree: the fuel [expr_fuel] suffices. *)
Lemma parse_total ts : exists e rest, parse ts = Some (e, rest).
Proof.
  destruct (proj1 (fuel_enough (expr_fuel ts)) ts (le_n _)) as (e & rest & E & _).
  exists e, rest; exact E.
Qed.

(** ** Binary view of the parse tree

    [ast_expr] reads a parse tree as a binary expression tree: a [+]/[-]
    chain and a [*]/[/] chain are folded to the left, an [NEXPRPP] node with
    three children is a [^] with its two operands, a parenthesized primary
    is its inner expression, and a NULL child is [ANull].  The three
    [ast_*] renders are the usual postfix, prefix and fully parenthesized
    forms of such a tree. *)

Inductive ast := ANull | AAtom (s : string) | ABin (op : string) (l r : ast).

Fixpoint ast_expr (e : expr_node) : ast :=
  match e with NEXPR c0 d => ast_loop_E (ast_exprp c0) d end
with ast_loop_E (acc : ast) (d : eXPR_node) {struct d} : ast :=
  match d with
  | NeXPR1 => acc
  | NeXPR3 op c1 d' => ast_loop_E (ABin (lstring op) acc (ast_exprp c1)) d'
  end
with ast_exprp (e : exprp_node) : ast :=
  match e with
  | NEXPRP c0 d =>
      ast_loop_P (match c0 with Some p => ast_exprpp p | None => ANull end) d
  end
with ast_loop_P (acc : ast) (d : eXPRP_node) {struct d} : ast :=
  match d with
  | NeXPRP1 => acc
  | NeXPRP3 op c1 d' =>
      ast_loop_P (ABin (lstring op) acc
                    (match c1 with Some p => ast_exprpp p | None => ANull end)) d'
  end
with ast_exprpp (p : exprpp_node) : ast :=
  match p with
  | NEXPRPP1 c0 => match c0 with Some q => ast_exprppp q | None => ANull end
  | NEXPRPP3 c0 _ c2 =>
      ABin "^" (match c0 with Some q => ast_exprppp q | None => ANull end)
               (match c2 with Some p' => ast_exprpp p' | None => ANull end)
  end
with ast_exprppp (q : exprppp_node) : ast :=
  match q with
  | NEXPRPPP1 a => AAtom (lstring a)
  | NEXPRPPP3 _ e _ => ast_expr e
  end.

Fixpoint ast_postfix (a : ast) : string :=
  match a with
  | ANull => ""
  | AAtom s => s ++ " "
  | ABin op l r => ast_postfix l ++ ast_postfix r ++ (op ++ " ")
  end.

Fixpoint ast_prefix (a : ast) : string :=
  match a with
  | ANull => ""
  | AAtom s => s ++ " "
  | ABin op l r => (op ++ " ") ++ ast_prefix l ++ ast_prefix r
  end.

Fixpoint ast_infix (a : ast) : string :=
  match a with
  | ANull => ""
  | AAtom s => s
  | ABin op l r => "(" ++ ast_infix l ++ op ++ ast_infix r ++ ")"
  end.

Lemma postfix_ast_expr : forall e, postfix_expr e = ast_postfix (ast_expr e)
with postfix_ast_loop_E : forall d a, postfix_loop_E (ast_postfix a) d = ast_postfix (ast_loop_E a d)
with postfix_ast_exprp : forall e, postfix_exprp e = ast_postfix (ast_exprp e)
with postfix_ast_loop_P : forall d a, postfix_loop_P (ast_postfix a) d = ast_postfix (ast_loop_P a d)
with postfix_ast_exprpp : forall p, postfix_exprpp p = ast_postfix (ast_exprpp p)
with postfix_ast_exprppp : forall q, postfix_exprppp q = ast_postfix (ast_exprppp q).
Proof.
  - intros [c0 [|op c1 d]]; simpl.
    + apply postfix_ast_exprp.
    + rewrite (postfix_ast_exprp c0), (postfix_ast_exprp c1).
      apply (postfix_ast_loop_E d (ABin (lstring op) (ast_exprp c0) (ast_exprp c1))).
  - intros [|op c1 d] a; simpl; [reflexivity|].
    rewrite (postfix_ast_exprp c1).
    apply (postfix_ast_loop_E d (ABin (lstring op) a (ast_exprp c1))).
  - intros [c0 [|op c1 d]]; simpl.
    + destruct c0 as [p|]; [apply postfix_ast_exprpp|reflexivity].
    + set (A0 := match c0 with Some p => ast_exprpp p | None => ANull end).
      set (A1 := match c1 with Some p => ast_exprpp p | None => ANull end).
      replace (match c0 with Some p => postfix_exprpp p | None => "" end) with (ast_postfix A0)
        by (unfold A0; destruct c0 as [p|]; [symmetry; apply postfix_ast_exprpp|reflexivity]).
      replace (match c1 with Some p => postfix_exprpp p | None => "" end) with (ast_postfix A1)
        by (unfold A1; destruct c1 as [p|]; [symmetry; apply postfix_ast_exprpp|reflexivity]).
      apply (postfix_ast_loop_P d (ABin (lstring op) A0 A1)).
  - intros [|op c1 d] a; simpl; [reflexivity|].
    set (A1 := match c1 with Some p => ast_exprpp p | None => ANull end).
    replace (match c1 with Some p => postfix_exprpp p | None => "" end) with (ast_postfix A1)
      by (unfold A1; destruct c1 as [p|]; [symmetry; apply postfix_ast_exprpp|reflexivity]).
    apply (postfix_ast_loop_P d (ABin (lstring op) a A1)).
  - intros [c0|c0 c1 c2]; simpl.
    + destruct c0 as [q|]; [apply postfix_ast_exprppp|reflexivity].
    + f_equal; [destruct c0 as [q|]; [apply postfix_ast_exprppp|reflexivity]|].
      f_equal; destruct c2 as [p|]; [apply postfix_ast_exprpp|reflexivity].
  - intros [a|lp e rp]; simpl; [reflexivity|apply postfix_ast_expr].
Qed.

Lemma prefix_ast_expr : forall e, prefix_expr e = ast_prefix (ast_expr e)
with prefix_ast_loop_E : forall d a, prefix_loop_E (ast_prefix a) d = ast_prefix (ast_loop_E a d)
with prefix_ast_exprp : forall e, prefix_exprp e = ast_prefix (ast_exprp e)
with prefix_ast_loop_P : forall d a, prefix_loop_P (ast_prefix a) d = ast_prefix (ast_loop_P a d)
with prefix_ast_exprpp : forall p, prefix_exprpp p = ast_prefix (ast_exprpp p)
with prefix_ast_exprppp : forall q, prefix_exprppp q = ast_prefix (ast_exprppp q).
Proof.
  - intros [c0 [|op c1 d]]; simpl.
    + apply prefix_ast_exprp.
    + rewrite (prefix_ast_exprp c0), (prefix_ast_exprp c1).
      apply (prefix_ast_loop_E d (ABin (lstring op) (ast_exprp c0) (ast_exprp c1))).
  - intros [|op c1 d] a; simpl; [reflexivity|].
    rewrite (prefix_ast_exprp c1), <- (prefix_ast_loop_E d (ABin (lstring op) a (ast_exprp c1))).
    f_equal; simpl; rewrite !str_app_assoc; reflexivity.
  - intros [c0 [|op c1 d]]; simpl.
    + destruct c0 as [p|]; [apply prefix_ast_exprpp|reflexivity].
    + set (A0 := match c0 with Some p => ast_exprpp p | None => ANull end).
      set (A1 := match c1 with Some p => ast_exprpp p | None => ANull end).
      replace (match c0 with Some p => prefix_exprpp p | None => "" end) with (ast_prefix A0)
        by (unfold A0; destruct c0 as [p|]; [symmetry; apply prefix_ast_exprpp|reflexivity]).
      replace (match c1 with Some p => prefix_exprpp p | None => "" end) with (ast_prefix A1)
        by (unfold A1; destruct c1 as [p|]; [symmetry; apply prefix_ast_exprpp|reflexivity]).
      apply (prefix_ast_loop_P d (ABin (lstring op) A0 A1)).
  - intros [|op c1 d] a; simpl; [reflexivity|].
    set (A1 := match c1 with Some p => ast_exprpp p | None => ANull end).
    replace (match c1 with Some p => prefix_exprpp p | None => "" end) with (ast_prefix A1)
      by (unfold A1; destruct c1 as [p|]; [symmetry; apply prefix_ast_exprpp|reflexivity]).
    rewrite <- (prefix_ast_loop_P d (ABin (lstring op) a A1)).
    f_equal; simpl; rewrite !str_app_assoc; reflexivity.
  - intros [c0|c0 c1 c2]; simpl.
    + destruct c0 as [q|]; [apply prefix_ast_exprppp|reflexivity].
    + destruct c0 as [q|]; [rewrite (prefix_ast_exprppp q)|];
        (destruct c2 as [p|]; [rewrite (prefix_ast_exprpp p)|]); reflexivity.
  - intros [a|lp e rp]; simpl; [reflexivity|apply prefix_ast_expr].
Qed.

Lemma pcp_loop_E_app : forall d x y, pcp_loop_E (x ++ y) d = x ++ pcp_loop_E y d.
Proof.
  induction d as [|op c1 d IH]; intros x y; simpl; [reflexivity|].
  rewrite str_app_assoc; apply IH.
Qed.

Lemma pcp_loop_P_app : forall d x y, pcp_loop_P (x ++ y) d = x ++ pcp_loop_P y d.
Proof.
  induction d as [|op c1 d IH]; intros x y; simpl; [reflexivity|].
  rewrite str_app_assoc; apply IH.
Qed.

Lemma opens_E_comm d : opens_E d ++ "(" = "(" ++ opens_E d.
Proof. induction d as [|op c1 d IH]; simpl; [reflexivity|rewrite IH; reflexivity]. Qed.

Lemma opens_P_comm d : opens_P d ++ "(" = "(" ++ opens_P d.
Proof. induction d as [|op c1 d IH]; simpl; [reflexivity|rewrite IH; reflexivity]. Qed.

Lemma pcp_ast_expr : forall e, pcp_expr e = ast_infix (ast_expr e)
with pcp_ast_loop_E : forall d a, ast_infix (ast_loop_E a d) = opens_E d ++ pcp_loop_E (ast_infix a) d
with pcp_ast_exprp : forall e, pcp_exprp e = ast_infix (ast_exprp e)
with pcp_ast_loop_P : forall d a, ast_infix (ast_loop_P a d) = opens_P d ++ pcp_loop_P (ast_infix a) d
with pcp_ast_exprpp : forall p, pcp_exprpp p = ast_infix (ast_exprpp p)
with pcp_ast_exprppp : forall q, pcp_exprppp q = ast_infix (ast_exprppp q).
Proof.
  - intros [c0 [|op c1 d]].
    + apply pcp_ast_exprp.
    + change (pcp_loop_E ("(" ++ opens_E d ++ pcp_exprp c0 ++ lstring op ++ pcp_exprp c1 ++ ")") d
              = ast_infix (ast_loop_E (ABin (lstring op) (ast_exprp c0) (ast_exprp c1)) d)).
      rewrite (pcp_ast_loop_E d), (pcp_ast_exprp c0), (pcp_ast_exprp c1).
      set (Z := ast_infix (ast_exprp c0) ++ lstring op ++ ast_infix (ast_exprp c1) ++ ")").
      change (ast_infix (ABin (lstring op) (ast_exprp c0) (ast_exprp c1))) with ("(" ++ Z).
      rewrite <- (str_app_assoc "(" (opens_E d) Z), (pcp_loop_E_app d ("(" ++ opens_E d) Z).
      rewrite (pcp_loop_E_app d "(" Z), <- str_app_assoc, opens_E_comm; reflexivity.
  - intros [|op c1 d] a; [reflexivity|].
    change (ast_infix (ast_loop_E (ABin (lstring op) a (ast_exprp c1)) d)
            = ("(" ++ opens_E d) ++ pcp_loop_E (ast_infix a ++ lstring op ++ pcp_exprp c1 ++ ")") d).
    rewrite (pcp_ast_loop_E d), (pcp_ast_exprp c1).
    set (Z := ast_infix a ++ lstring op ++ ast_infix (ast_exprp c1) ++ ")").
    change (ast_infix (ABin (lstring op) a (ast_exprp c1))) with ("(" ++ Z).
    rewrite (pcp_loop_E_app d "(" Z), <- str_app_assoc, opens_E_comm; reflexivity.
  - intros [c0 [|op c1 d]].
    + destruct c0 as [p|]; [apply pcp_ast_exprpp|reflexivity].
    + set (A0 := match c0 with Some p => ast_exprpp p | None => ANull end).
      set (A1 := match c1 with Some p => ast_exprpp p | None => ANull end).
      change (pcp_loop_P ("(" ++ opens_P d
                  ++ match c0 with Some p => pcp_exprpp p | None => "" end
                  ++ lstring op
                  ++ match c1 with Some p => pcp_exprpp p | None => "" end ++ ")") d
              = ast_infix (ast_loop_P (ABin (lstring op) A0 A1) d)).
      replace (match c0 with Some p => pcp_exprpp p | None => "" end) with (ast_infix A0)
        by (unfold A0; destruct c0 as [p|]; [symmetry; apply pcp_ast_exprpp|reflexivity]).
      replace (match c1 with Some p => pcp_exprpp p | None => "" end) with (ast_infix A1)
        by (unfold A1; destruct c1 as [p|]; [symmetry; apply pcp_ast_exprpp|reflexivity]).
      rewrite (pcp_ast_loop_P d).
      set (Z := ast_infix A0 ++ lstring op ++ ast_infix A1 ++ ")").
      change (ast_infix (ABin (lstring op) A0 A1)) with ("(" ++ Z).
      rewrite <- (str_app_assoc "(" (opens_P d) Z), (pcp_loop_P_app d ("(" ++ opens_P d) Z).
      rewrite (pcp_loop_P_app d "(" Z), <- str_app_assoc, opens_P_comm; reflexivity.
  - intros [|op c1 d] a; [reflexivity|].
    set (A1 := match c1 with Some p => ast_exprpp p | None => ANull end).
    change (ast_infix (ast_loop_P (ABin (lstring op) a A1) d)
            = ("(" ++ opens_P d) ++ pcp_loop_P (ast_infix a ++ lstring op
                 ++ match c1 with Some p => pcp_exprpp p | None => "" end ++ ")") d).
    replace (match c1 with Some p => pcp_exprpp p | None => "" end) with (ast_infix A1)
      by (unfold A1; destruct c1 as [p|]; [symmetry; apply pcp_ast_exprpp|reflexivity]).
    rewrite (pcp_ast_loop_P d).
    set (Z := ast_infix a ++ lstring op ++ ast_infix A1 ++ ")").
    change (ast_infix (ABin (lstring op) a A1)) with ("(" ++ Z).
    rewrite (pcp_loop_P_app d "(" Z), <- str_app_assoc, opens_P_comm; reflexivity.
  - intros [c0|c0 c1 c2]; simpl.
    + destruct c0 as [q|]; [apply pcp_ast_exprppp|reflexivity].
    + destruct c0 as [q|]; [rewrite (pcp_ast_exprppp q)|];
        (destruct c2 as [p|]; [rewrite (pcp_ast_exprpp p)|]); reflexivity.
  - intros [a|lp e rp]; simpl; [reflexivity|apply pcp_ast_expr].
Qed.

(** ** The cursor only moves forward *)

Definition suffix_of (ts' ts : list token) : Prop := exists pre, ts = (pre ++ ts')%list.

Definition advances {A} (m : PM A) : Prop :=
  forall ts a ts', m ts = Some (a, ts') -> suffix_of ts' ts.

Lemma suffix_refl ts : suffix_of ts ts.
Proof. exists []; reflexivity. Qed.

Lemma suffix_trans a b c : suffix_of a b -> suffix_of b c -> suffix_of a c.
Proof. intros [p ->] [q ->]; exists (q ++ p)%list; apply app_assoc. Qed.

Lemma suffix_cons t ts' ts : suffix_of ts' ts -> suffix_of ts' (t :: ts).
Proof. intros [p ->]; exists (t :: p); reflexivity. Qed.

Lemma advances_ret {A} (x : A) : advances (retP x).
Proof. intros ts a ts' H; inversion H; apply suffix_refl. Qed.

Lemma advances_bind {A B} (m : PM A) (k : A -> PM B) :
  advances m -> (forall x, advances (k x)) -> advances (bindP m k).
Proof.
  intros Hm Hk ts b ts' H; unfold bindP in H.
  destruct (m ts) as [[x ts1]|] eqn:E; [|discriminate].
  exact (suffix_trans _ _ _ (Hk x _ _ _ H) (Hm _ _ _ E)).
Qed.

Lemma advances_match_leaf ty nt : advances (match_leaf ty nt).
Proof.
  intros [|t ts] a ts' H; simpl in H.
  - inversion H; apply suffix_refl.
  - destruct (tok_type_eqb (type t) ty); inversion H; apply suffix_cons, suffix_refl.
Qed.

Lemma advances_use {A} (m : PM A) ts a ts' :
  advances m -> m ts = Some (a, ts') -> suffix_of ts' ts.
Proof. intros Hm H; exact (Hm _ _ _ H). Qed.

Ltac adv_chain :=
  repeat first [ apply advances_bind; [|intros ?]
               | apply advances_ret
               | apply advances_match_leaf
               | assumption ].

Lemma parser_advances : forall n,
  advances (expr n) /\ advances (Expr n) /\ advances (exprp n) /\
  advances (Exprp n) /\ advances (exprpp n) /\ advances (exprppp n).
Proof.
  induction n as [|n IH]; [repeat split; intros ? ? ? H; discriminate|].
  destruct IH as (He & HE & Hp & HP & Hpp & Hppp).
  unfold lparen, rparen, expo in *.
  repeat split.
  - simpl; adv_chain.
  - intros [|t ts] a ts' H; simpl in H; [inversion H; apply suffix_refl|].
    destruct (type t);
      try (inversion H; apply suffix_refl);
      apply suffix_cons; (eapply advances_use; [|exact H]); adv_chain.
  - simpl; adv_chain.
  - intros [|t ts] a ts' H; simpl in H; [inversion H; apply suffix_refl|].
    destruct (type t);
      try (inversion H; apply suffix_refl);
      apply suffix_cons; (eapply advances_use; [|exact H]); adv_chain.
  - intros [|t ts] a ts' H; simpl in H; [inversion H; apply suffix_refl|].
    repeat match type of H with
           | context [if ?b then _ else _] => destruct b
           | context [match ?l with [] => _ | _ :: _ => _ end] => destruct l
           end;
      try (inversion H; apply suffix_refl);
      (eapply advances_use; [|exact H]); adv_chain.
  - intros [|t ts] a ts' H; simpl in H; [inversion H; apply suffix_refl|].
    destruct (tok_type_eqb (type t) ATOM);
      [inversion H; apply suffix_cons, suffix_refl|].
    (eapply advances_use; [|exact H]); adv_chain.
Qed.

(** ** Leaf strings of the tree come from the input tokens *)

Fixpoint ast_all (p : string -> bool) (a : ast) : bool :=
  match a with
  | ANull => true
  | AAtom s => p s
  | ABin op l r => p op && ast_all p l && ast_all p r
  end.

Definition opt_ast_pp (o : option exprpp_node) : ast :=
  match o with Some p => ast_exprpp p | None => ANull end.

Definition opt_ast_ppp (o : option exprppp_node) : ast :=
  match o with Some q => ast_exprppp q | None => ANull end.

Section LeafStrings.

Variable p : string -> bool.
Hypothesis p_pow : p "^" = true.

(** Atoms and the four operators become leaves with their strings. *)
Definition leaf_tok_ok (t : token) : Prop :=
  match type t with
  | ATOM | ADD | SUB | MUL | DIV => p (tok_string t) = true
  | _ => True
  end.

Definition keeps {A} (m : PM A) (Q : A -> Prop) : Prop :=
  forall ts a ts', Forall leaf_tok_ok ts -> m ts = Some (a, ts') -> Q a.

Lemma keeps_bind {A B} (m : PM A) (k : A -> PM B) (Q1 : A -> Prop) (Q2 : B -> Prop) :
  advances m -> keeps m Q1 -> (forall x, Q1 x -> keeps (k x) Q2) -> keeps (bindP m k) Q2.
Proof.
  intros Ha Hm Hk ts b ts' Hts H; unfold bindP in H.
  destruct (m ts) as [[x ts1]|] eqn:E; [|discriminate].
  destruct (Ha _ _ _ E) as [pre ->].
  pose proof (Hm _ _ _ Hts E) as Hx.
  apply Forall_app in Hts as [_ Hts1].
  exact (Hk x Hx _ _ _ Hts1 H).
Qed.

Lemma keeps_ret {A} (x : A) (Q : A -> Prop) : Q x -> keeps (retP x) Q.
Proof. intros Hq ts a ts' _ H; inversion H; subst; exact Hq. Qed.

Lemma keeps_true {A} (m : PM A) : keeps m (fun _ => True).
Proof. intros ts a ts' _ _; exact I. Qed.

Lemma keeps_use {A} (m : PM A) (Q : A -> Prop) ts a ts' :
  keeps m Q -> Forall leaf_tok_ok ts -> m ts = Some (a, ts') -> Q a.
Proof. intros Hm Hts H; exact (Hm _ _ _ Hts H). Qed.

Definition Q_expr (e : expr_node) : Prop := ast_all p (ast_expr e) = true.
Definition Q_E (d : eXPR_node) : Prop :=
  forall a, ast_all p a = true -> ast_all p (ast_loop_E a d) = true.
Definition Q_exprp (e : exprp_node) : Prop := ast_all p (ast_exprp e) = true.
Definition Q_P (d : eXPRP_node) : Prop :=
  forall a, ast_all p a = true -> ast_all p (ast_loop_P a d) = true.
Definition Q_exprpp (o : option exprpp_node) : Prop := ast_all p (opt_ast_pp o) = true.
Definition Q_exprppp (o : option exprppp_node) : Prop := ast_all p (opt_ast_ppp o) = true.

Lemma parser_keeps_leaves : forall n,
  keeps (expr n) Q_expr /\ keeps (Expr n) Q_E /\ keeps (exprp n) Q_exprp /\
  keeps (Exprp n) Q_P /\ keeps (exprpp n) Q_exprpp /\ keeps (exprppp n) Q_exprppp.
Proof.
  intros n; induction n as [|n IH]; [repeat split; intros ? ? ? _ H; discriminate|].
  destruct (parser_advances n) as (Ae & AE & Ap & AP & App & Appp).
  destruct IH as (He & HE & Hp & HP & Hpp & Hppp).
  unfold lparen, rparen, expo in *.
  repeat split.
  - simpl.
    eapply keeps_bind; [exact Ap|exact Hp|intros c0 H0].
    eapply keeps_bind; [exact AE|exact HE|intros c1 H1].
    apply keeps_ret; unfold Q_expr; simpl; exact (H1 _ H0).
  - intros [|t ts] d ts' Hts H; simpl in H; [inversion H; intros a Ha; exact Ha|].
    inversion Hts as [|? ? Ht Hts0]; subst.
    destruct (type t) eqn:Ety; try (inversion H; intros a Ha; exact Ha);
      (eapply keeps_use; [|exact Hts0|exact H]);
      (eapply keeps_bind; [exact Ap|exact Hp|intros c1 H1]);
      (eapply keeps_bind; [exact AE|exact HE|intros c2 H2]);
      apply keeps_ret; intros a Ha; simpl; apply H2; simpl;
      unfold leaf_tok_ok in Ht; rewrite Ety in Ht; rewrite Ht, Ha, H1; reflexivity.
  - simpl.
    eapply keeps_bind; [exact App|exact Hpp|intros c0 H0].
    eapply keeps_bind; [exact AP|exact HP|intros c1 H1].
    apply keeps_ret; unfold Q_exprp; simpl; exact (H1 _ H0).
  - intros [|t ts] d ts' Hts H; simpl in H; [inversion H; intros a Ha; exact Ha|].
    inversion Hts as [|? ? Ht Hts0]; subst.
    destruct (type t) eqn:Ety; try (inversion H; intros a Ha; exact Ha);
      (eapply keeps_use; [|exact Hts0|exact H]);
      (eapply keeps_bind; [exact App|exact Hpp|intros c1 H1]);
      (eapply keeps_bind; [exact AP|exact HP|intros c2 H2]);
      apply keeps_ret; intros a Ha; simpl; apply H2; simpl;
      unfold leaf_tok_ok in Ht; rewrite Ety in Ht; rewrite Ht, Ha; exact H1.
  - assert (Hthree : keeps (c0 <- exprppp n ;; c1 <- match_leaf EXP NEXP ;; c2 <- exprpp n ;;
                            retP (Some (NEXPRPP3 c0 c1 c2))) Q_exprpp).
    { eapply keeps_bind; [exact Appp|exact Hppp|intros c0 H0].
      eapply keeps_bind; [apply advances_match_leaf|apply keeps_true|intros c1 _].
      eapply keeps_bind; [exact App|exact Hpp|intros c2 H2].
      apply keeps_ret; unfold Q_exprpp; simpl; rewrite p_pow; exact (f_equal2 andb H0 H2). }
    assert (Hone : keeps (c0 <- exprppp n ;; retP (Some (NEXPRPP1 c0))) Q_exprpp).
    { eapply keeps_bind; [exact Appp|exact Hppp|intros c0 H0].
      apply keeps_ret; exact H0. }
    intros [|t ts] o ts' Hts H; simpl in H; [inversion H; reflexivity|].
    repeat match type of H with
           | context [if ?b then _ else _] => destruct b
           | context [match ?l with [] => _ | _ :: _ => _ end] => destruct l
           end;
      try (inversion H; reflexivity);
      first [exact (Hthree _ _ _ Hts H) | exact (Hone _ _ _ Hts H)].
  - intros [|t ts] o ts' Hts H; simpl in H; [inversion H; reflexivity|].
    inversion Hts as [|? ? Ht Hts0]; subst.
    destruct (tok_type_eqb (type t) ATOM) eqn:Ea.
    + inversion H; subst; unfold Q_exprppp; simpl.
      unfold leaf_tok_ok in Ht; destruct (type t); try discriminate; exact Ht.
    + revert H; apply keeps_use; [|exact Hts].
      eapply keeps_bind; [apply advances_match_leaf|apply keeps_true|intros c0 _].
      eapply keeps_bind; [exact Ae|exact He|intros c1 H1].
      eapply keeps_bind; [apply advances_match_leaf|apply keeps_true|intros c2 _].
      apply keeps_ret; exact H1.
Qed.

End LeafStrings.

(** ** Parentheses in the outputs *)

Definition not_paren (c : ascii) : bool := negb (Ascii.eqb c "(" || Ascii.eqb c ")").

Definition no_paren (s : string) : bool := all_chars not_paren s.






(** The lexer's atom and operator strings hold no parenthesis. *)
Lemma lexed_leaves_no_paren s : Forall (leaf_tok_ok no_paren) (lexed_input s).
Proof.
  unfold lexed_input; pose proof (lex_loop_ok (String.length s) s (le_n _)) as Hc; fold (input_lexer s) in Hc.
  destruct (input_lexer s) as [ts|]; [|constructor].
  destruct Hc as (_ & _ & Hwf & _).
  induction Hwf as [|t ts Ht _ IH]; constructor; [|exact IH].
  unfold tok_wf in Ht; unfold leaf_tok_ok.
  assert (Hop : forall c ty, op_type c = Some ty -> ty <> LPAREN -> ty <> RPAREN ->
                no_paren (String c "") = true).
  { intros c ty Ho Hl Hr; unfold no_paren, not_paren; simpl.
    destruct (Ascii.eqb c "(") eqn:E1;
      [apply Ascii.eqb_eq in E1; subst; compute in Ho; congruence|].
    destruct (Ascii.eqb c ")") eqn:E2;
      [apply Ascii.eqb_eq in E2; subst; compute in Ho; congruence|reflexivity]. }
  assert (Hnp : forall c, (isalpha c || isdigit c) = true -> not_paren c = true).
  { intros c Hc; unfold not_paren.
    destruct (Ascii.eqb c "(") eqn:E1; [apply Ascii.eqb_eq in E1; subst; discriminate|].
    destruct (Ascii.eqb c ")") eqn:E2; [apply Ascii.eqb_eq in E2; subst; discriminate|reflexivity]. }
  destruct (type t).
  - exact I.
  - exact I.
  - exact I.
  - destruct Ht as (c & -> & Ho); exact (Hop _ _ Ho ltac:(discriminate) ltac:(discriminate)).
  - destruct Ht as (c & -> & Ho); exact (Hop _ _ Ho ltac:(discriminate) ltac:(discriminate)).
  - destruct Ht as (c & -> & Ho); exact (Hop _ _ Ho ltac:(discriminate) ltac:(discriminate)).
  - destruct Ht as (c & -> & Ho); exact (Hop _ _ Ho ltac:(discriminate) ltac:(discriminate)).
  - destruct Ht as [_ [Ha|Hd]]; unfold no_paren.
    + revert Ha; apply all_chars_impl; intros c Hc; apply Hnp; rewrite Hc; reflexivity.
    + revert Hd; apply all_chars_impl; intros c Hc; apply Hnp; rewrite Hc, orb_true_r; reflexivity.
Qed.

Lemma tree_of_leaves_no_paren s : ast_all no_paren (ast_expr (tree_of s)) = true.
Proof.
  unfold tree_of.
  destruct (parse_total (lexed_input s)) as (e & rest & E); rewrite E.
  pose proof (proj1 (parser_keeps_leaves no_paren eq_refl (expr_fuel (lexed_input s)))) as K.
  exact (K _ _ _ (lexed_leaves_no_paren s) E).
Qed.

(** ** Characters of the renders *)

Fixpoint count_char (c : ascii) (s : string) : nat :=
  match s with
  | EmptyString => 0
  | String d s' => (if Ascii.eqb c d then 1 else 0) + count_char c s'
  end.

Lemma count_char_app c x y : count_char c (x ++ y) = count_char c x + count_char c y.
Proof. induction x as [|d x IH]; simpl; [reflexivity|rewrite IH; lia]. Qed.

Lemma count_char_other (c d : ascii) : c <> d -> count_char c (String d "") = 0.
Proof. intros H; simpl; apply Ascii.eqb_neq in H; rewrite H; reflexivity. Qed.

Lemma ast_postfix_prefix_count c a : count_char c (ast_postfix a) = count_char c (ast_prefix a).
Proof.
  induction a as [| s | op l IHl r IHr]; simpl; [reflexivity|reflexivity|].
  rewrite !count_char_app, IHl, IHr; lia.
Qed.

Lemma ast_infix_postfix_count (c : ascii) a :
  c <> "("%char -> c <> ")"%char -> c <> " "%char ->
  count_char c (ast_infix a) = count_char c (ast_postfix a).
Proof.
  intros H1 H2 H3.
  induction a as [| s | op l IHl r IHr]; [reflexivity| |].
  - cbn [ast_infix ast_postfix]; rewrite count_char_app, (count_char_other c " " H3); lia.
  - cbn [ast_infix ast_postfix].
    rewrite !count_char_app, (count_char_other c "(" H1), (count_char_other c ")" H2),
      (count_char_other c " " H3), IHl, IHr; lia.
Qed.

Lemma strip_parens_count (c : ascii) a :
  c <> "("%char -> c <> ")"%char -> ast_all no_paren a = true ->
  count_char c (strip_parens (ast_infix a)) = count_char c (ast_infix a).
Proof.
  intros H1 H2 H; destruct a as [| s | op l r].
  - reflexivity.
  - simpl in H |- *; destruct s as [|d s']; [reflexivity|].
    unfold no_paren in H; simpl in H; apply andb_true_iff in H as [Hd _].
    unfold not_paren in Hd; destruct (Ascii.eqb d "(") eqn:E; [discriminate|].
    apply Ascii.eqb_neq in E; unfold strip_parens.
    destruct d as [[] [] [] [] [] [] [] []]; try reflexivity; congruence.
  - replace (ast_infix (ABin op l r)) with ("(" ++ (ast_infix l ++ op ++ ast_infix r) ++ ")")
      by (simpl; rewrite !str_app_assoc; reflexivity).
    rewrite strip_parens_wrapped.
    change ("(" ++ (ast_infix l ++ op ++ ast_infix r) ++ ")")
      with (String "(" "" ++ (ast_infix l ++ op ++ ast_infix r) ++ String ")" "").
    rewrite (count_char_app c (String "(" "")), (count_char_app c _ (String ")" "")),
      (count_char_other c "(" H1), (count_char_other c ")" H2); lia.
Qed.


Lemma ast_renders_end_in_space a :
  (ast_postfix a = "" \/ exists b, ast_postfix a = b ++ " ") /\
  (ast_prefix a = "" \/ exists b, ast_prefix a = b ++ " ").
Proof.
  induction a as [| s | op l IHl r IHr]; simpl.
  - split; left; reflexivity.
  - split; right; exists s; reflexivity.
  - destruct IHl as [_ [Hl|[bl Hl]]], IHr as [_ [Hr|[br Hr]]]; split; right.
    + exists (ast_postfix l ++ ast_postfix r ++ op); rewrite !str_app_assoc; reflexivity.
    + exists op; rewrite Hl, Hr, !str_app_assoc; reflexivity.
    + exists (ast_postfix l ++ ast_postfix r ++ op); rewrite !str_app_assoc; reflexivity.
    + exists (op ++ " " ++ br); rewrite Hl, Hr, !str_app_assoc; reflexivity.
    + exists (ast_postfix l ++ ast_postfix r ++ op); rewrite !str_app_assoc; reflexivity.
    + exists (op ++ " " ++ bl); rewrite Hl, Hr, !str_app_assoc; reflexivity.
    + exists (ast_postfix l ++ ast_postfix r ++ op); rewrite !str_app_assoc; reflexivity.
    + exists (op ++ " " ++ bl ++ " " ++ br); rewrite Hl, Hr, !str_app_assoc; reflexivity.
Qed.

Lemma skip_to_rparen_none ts :
  Forall (fun t => type t <> RPAREN) ts -> skip_to_rparen ts = [].
Proof.
  induction 1 as [|t ts Ht _ IH]; simpl; [reflexivity|].
  destruct (type t); try reflexivity; try exact IH; congruence.
Qed.

Lemma lexed_input_invalid s : all_chars valid_char s = false -> lexed_input s = [].
Proof.
  intros H; unfold lexed_input, input_lexer.
  pose proof (lex_loop_ok (String.length s) s (le_n _)) as Hc.
  destruct (lex_loop (String.length s) s) as [ts|]; [|reflexivity].
  destruct Hc as (Hv & _); congruence.
Qed.

Lemma exprpp_null_step n t ts :
  type t <> ATOM -> Forall (fun u => type u <> RPAREN) (t :: ts) ->
  exprpp (S n) (t :: ts) = Some (None, t :: ts).
Proof.
  intros Ha Hr.
  assert (Ea : tok_type_eqb (type t) ATOM = false) by (destruct (type t); try reflexivity; congruence).
  cbn [exprpp]; rewrite Ea, (skip_to_rparen_none _ Hr); reflexivity.
Qed.


(** ** main: reading the line *)












(** ** Claims *)

(** C1: the lookahead of exprpp stops at the FIRST [)] after the cursor,
    not at the [)] matching the opening parenthesis.  On [((a))^b] the token
    after the inner [)] is [)], so exprpp builds the one-child node although
    the token after the matching [)] is [^]: the cursor is left on [^ b].
    On [(a)^b], with no nesting, the [^] production is taken. *)
Theorem exprpp_stops_at_first_rparen :
  (let ts := lexed_input "((a))^b" in
   exists q, exprpp (expr_fuel ts) ts
             = Some (Some (NEXPRPP1 q), [mk_token EXP "^"; mk_token ATOM "b"])) /\
  (let ts := lexed_input "(a)^b" in
   exists q l q', exprpp (expr_fuel ts) ts = Some (Some (NEXPRPP3 q l q'), [])).
Proof.
  split.
  - vm_compute; eexists; reflexivity.
  - vm_compute; do 3 eexists; reflexivity.
Qed.

(** C2 (counterexample): the token sequence [a )] does not reduce to a
    complete expression, yet expr returns a tree without any NULL child,
    the trailing [)] is left unread, and the renders are those of [a]. *)
Lemma parse_accepts_trailing_rparen :
  parse (lexed_input "a)") = Some (tree_of "a", [mk_token RPAREN ")"]) /\
  nonnull_expr (tree_of "a)") = true /\
  compl_par (tree_of "a)") = "a" /\ postfix (tree_of "a)") = "a " /\
  prefix (tree_of "a)") = "a ".
Proof. vm_compute; repeat split. Qed.

(** C2 (amended): expr has no failure result; on every token sequence it
    returns a tree.  A malformed sequence shows at most as NULL children,
    rendered as empty strings: [(a+b], [a+] and [a+*b] give trees with a
    NULL child, rendered [""], [a+] and [a+( *b)].  Tokens after a complete
    leading expression are ignored: [a)] gives the NULL-free tree of [a]. *)
Theorem parse_has_no_error_result :
  (forall ts, exists e rest, parse ts = Some (e, rest)) /\
  nonnull_expr (tree_of "(a+b") = false /\ compl_par (tree_of "(a+b") = "" /\
  nonnull_expr (tree_of "a+") = false /\ compl_par (tree_of "a+") = "a+" /\
  nonnull_expr (tree_of "a+*b") = false /\ compl_par (tree_of "a+*b") = "a+(*b)" /\
  parse (lexed_input "a)") = Some (tree_of "a", [mk_token RPAREN ")"]) /\
  nonnull_expr (tree_of "a") = true.
Proof.
  split; [exact parse_total|].
  vm_compute; repeat split.
Qed.

(** C3: on the valid complete expression [((a))^b] (see C1) the three
    renders are those of [a]: [^] and [b] are missing. *)
Theorem renders_drop_pow_after_nested_parens :
  let e := tree_of "((a))^b" in
  compl_par e = "a" /\ postfix e = "a " /\ prefix e = "a ".
Proof. vm_compute; repeat split. Qed.

(** C4: [(a+b*c)^d] parses completely into a NULL-free tree whose
    fully-parenthesized form is [(a+(b*c))^d]; re-parsing that form stops
    after [(a+(b*c))] (see C1), so its postfix and prefix renders lose
    [d] and [^]. *)
Theorem roundtrip_breaks_on_nested_paren_base :
  let e := tree_of "(a+b*c)^d" in
  let e' := tree_of (compl_par e) in
  parse (lexed_input "(a+b*c)^d") = Some (e, []) /\ nonnull_expr e = true /\
  compl_par e = "(a+(b*c))^d" /\
  postfix e = "a b c * + d ^ " /\ prefix e = "^ + a * b c d " /\
  postfix e' = "a b c * + " /\ prefix e' = "+ a * b c ".
Proof. vm_compute; repeat split. Qed.

(** C5 (counterexample): every token of the postfix render is followed by
    a space, so the render of [a-b-c] is not [a b - c -]. *)
Lemma sub_chain_postfix_has_trailing_space :
  postfix (tree_of "a-b-c") <> "a b - c -".
Proof. vm_compute; discriminate. Qed.

(** C5 (amended): [a-b-c] is grouped [(a-b)-c]; postfix [a b - c - ] and
    prefix [- - a b c ], each token followed by one space. *)
Theorem sub_chain_renders :
  let e := tree_of "a-b-c" in
  compl_par e = "(a-b)-c" /\ postfix e = "a b - c - " /\ prefix e = "- - a b c ".
Proof. vm_compute; repeat split. Qed.

(** C6 (counterexample): the postfix render of [a^b^c] ends in a space. *)
Lemma pow_chain_postfix_has_trailing_space :
  postfix (tree_of "a^b^c") <> "a b c ^ ^".
Proof. vm_compute; discriminate. Qed.

(** C6 (amended): [a^b^c] parses as [a^(b^c)]; postfix [a b c ^ ^ ] and
    prefix [^ a ^ b c ], each token followed by one space. *)
Theorem pow_chain_renders :
  let e := tree_of "a^b^c" in
  compl_par e = "a^(b^c)" /\ postfix e = "a b c ^ ^ " /\ prefix e = "^ a ^ b c ".
Proof. vm_compute; repeat split. Qed.

(** C7 (counterexample): the postfix render of the example ends in a space. *)
Lemma example_postfix_has_trailing_space :
  postfix (tree_of "(a+3)+var^(b+282*c)") <> "a 3 + var b 282 c * + ^ +".
Proof. vm_compute; discriminate. Qed.

(** C7 (amended): the example renders as [(a+3)+(var^(b+(282*c)))],
    [a 3 + var b 282 c * + ^ + ] and [+ + a 3 ^ var + b * 282 c ], the
    last two with a space after every token. *)
Theorem example_renders :
  let e := tree_of "(a+3)+var^(b+282*c)" in
  compl_par e = "(a+3)+(var^(b+(282*c)))" /\
  postfix e = "a 3 + var b 282 c * + ^ + " /\
  prefix e = "+ + a 3 ^ var + b * 282 c ".
Proof. vm_compute; repeat split. Qed.

(** C8 (counterexample): the parentheses the user wrote around the primary
    [a] in [(a)+b] do not survive: the fully-parenthesized form is [a+b]. *)
Lemma user_parens_around_primary_dropped :
  compl_par (tree_of "(a)+b") = "a+b".
Proof. vm_compute; reflexivity. Qed.

(** C8 (amended): when the whole expression is a [+]/[-] chain, a [*]/[/]
    chain or a [^] node, pre_compl_par wraps it in one pair around some x
    and compl_par returns x.  A parenthesized primary [( e )] pre-renders
    exactly as [e], so the user's own parentheses are not kept: [(a)]
    renders [a], [(a)+b] renders [a+b], [(a+b)] renders [a+b]. *)
Theorem compl_par_strips_top_pair :
  (forall c0 op c1 c2, exists x,
     pcp_expr (NEXPR c0 (NeXPR3 op c1 c2)) = "(" ++ x ++ ")" /\
     compl_par (NEXPR c0 (NeXPR3 op c1 c2)) = x) /\
  (forall c0 op c1 c2, exists x,
     pcp_expr (NEXPR (NEXPRP c0 (NeXPRP3 op c1 c2)) NeXPR1) = "(" ++ x ++ ")" /\
     compl_par (NEXPR (NEXPRP c0 (NeXPRP3 op c1 c2)) NeXPR1) = x) /\
  (forall c0 c1 c2, exists x,
     pcp_expr (NEXPR (NEXPRP (Some (NEXPRPP3 c0 c1 c2)) NeXPRP1) NeXPR1) = "(" ++ x ++ ")" /\
     compl_par (NEXPR (NEXPRP (Some (NEXPRPP3 c0 c1 c2)) NeXPRP1) NeXPR1) = x) /\
  (forall lp e rp, pcp_exprppp (NEXPRPPP3 lp e rp) = pcp_expr e) /\
  compl_par (tree_of "(a)") = "a" /\ compl_par (tree_of "(a)+b") = "a+b" /\
  compl_par (tree_of "(a+b)") = "a+b".
Proof.
  split; [|split; [|split; [|split]]].
  - intros c0 op c1 c2.
    set (Y := opens_E c2 ++ pcp_exprp c0 ++ lstring op ++ pcp_exprp c1).
    assert (E : pcp_expr (NEXPR c0 (NeXPR3 op c1 c2)) = pcp_loop_E (("(" ++ Y) ++ ")") c2)
      by (unfold Y; cbn [pcp_expr]; rewrite !str_app_assoc; reflexivity).
    destruct (pcp_loop_E_close c2 ("(" ++ Y)) as [z Hz].
    exists (Y ++ z); unfold compl_par; rewrite E, Hz.
    rewrite (str_app_assoc "(" Y), <- (str_app_assoc Y z ")").
    split; [reflexivity|apply strip_parens_wrapped].
  - intros c0 op c1 c2.
    set (Y := opens_P c2 ++ match c0 with Some p => pcp_exprpp p | None => "" end
              ++ lstring op ++ match c1 with Some p => pcp_exprpp p | None => "" end).
    assert (E : pcp_expr (NEXPR (NEXPRP c0 (NeXPRP3 op c1 c2)) NeXPR1)
                = pcp_loop_P (("(" ++ Y) ++ ")") c2)
      by (unfold Y; cbn [pcp_expr pcp_exprp]; rewrite !str_app_assoc; reflexivity).
    destruct (pcp_loop_P_close c2 ("(" ++ Y)) as [z Hz].
    exists (Y ++ z); unfold compl_par; rewrite E, Hz.
    rewrite (str_app_assoc "(" Y), <- (str_app_assoc Y z ")").
    split; [reflexivity|apply strip_parens_wrapped].
  - intros c0 c1 c2.
    set (A := match c0 with Some q => pcp_exprppp q | None => "" end).
    set (B := match c2 with Some p' => pcp_exprpp p' | None => "" end).
    assert (E : pcp_expr (NEXPR (NEXPRP (Some (NEXPRPP3 c0 c1 c2)) NeXPRP1) NeXPR1)
                = "(" ++ (A ++ "^" ++ B) ++ ")")
      by (unfold A, B; cbn [pcp_expr pcp_exprp pcp_exprpp]; rewrite !str_app_assoc; reflexivity).
    exists (A ++ "^" ++ B); unfold compl_par; rewrite E.
    split; [reflexivity|apply strip_parens_wrapped].
  - reflexivity.
  - vm_compute; repeat split.
Qed.

(** C9: input_lexer succeeds exactly when every character is a letter, a
    digit or one of [()^*/+-]; the tokens then spell the input, each Atom
    is a non-empty run of letters or of digits, every other token is one
    operator or parenthesis character, and no Atom is followed by an Atom
    of its class (maximal munch).  On any other character it takes the
    [default:] branch ("Invalid input!", NULL). *)
Theorem input_lexer_contract : forall s,
  match input_lexer s with
  | Some ts => all_chars valid_char s = true /\ lexemes ts = s /\ Forall tok_wf ts /\
               atoms_maximal ts = true
  | None => all_chars valid_char s = false
  end.
Proof. intros s; exact (lex_loop_ok (String.length s) s (le_n _)). Qed.

(** C10: expr returns a tree on every token sequence; exprp stores the
    result of exprpp, NULL included, as its first child (so the empty
    sequence gives a tree with a NULL child); and the renderers render such
    a NULL child as the empty string. *)
Theorem expr_returns_tree_with_null_children :
  (forall ts, exists e rest, parse ts = Some (e, rest)) /\
  (forall n ts, exprp (S n) ts =
     match exprpp n ts with
     | Some (c0, ts1) =>
         match Exprp n ts1 with Some (c1, ts2) => Some (NEXPRP c0 c1, ts2) | None => None end
     | None => None
     end) /\
  parse [] = Some (NEXPR (NEXPRP None NeXPRP1) NeXPR1, []) /\
  pcp_exprp (NEXPRP None NeXPRP1) = "" /\ postfix_exprp (NEXPRP None NeXPRP1) = "" /\
  prefix_exprp (NEXPRP None NeXPRP1) = "" /\
  compl_par (tree_of "a+") = "a+" /\ nonnull_expr (tree_of "a+") = false.
Proof.
  split; [exact parse_total|].
  split; [reflexivity|].
  vm_compute; repeat split.
Qed.

(** ** Further properties *)
(** The postfix render is the postfix form of the binary tree [ast_expr]
    reads from the parse tree: [+]/[-] and [*]/[/] chains grouped to the
    left, [^] with its two operands, parenthesized primaries transparent,
    NULL children empty; every atom and operator is followed by a space. *)
Theorem postfix_is_tree_postfix : forall e, postfix e = ast_postfix (ast_expr e).
Proof. exact postfix_ast_expr. Qed.

(** The prefix render is the prefix form of the same binary tree: the
    reversal loop of prefix puts each operator before its left-grouped
    operands. *)
Theorem prefix_is_tree_prefix : forall e, prefix e = ast_prefix (ast_expr e).
Proof. exact prefix_ast_expr. Qed.

(** pre_compl_par is the fully parenthesized infix form of the same binary
    tree (one pair per operator, none around atoms), and compl_par is that
    string passed through strip_parens. *)
Theorem pre_compl_par_is_tree_infix : forall e,
  pcp_expr e = ast_infix (ast_expr e) /\ compl_par e = strip_parens (ast_infix (ast_expr e)).
Proof. intros e; unfold compl_par; rewrite pcp_ast_expr; split; reflexivity. Qed.

(** For every tree, the postfix and prefix renders contain each character
    the same number of times: they are rearrangements of each other. *)
Theorem postfix_prefix_same_characters : forall e c,
  count_char c (postfix e) = count_char c (prefix e).
Proof.
  intros e c; unfold postfix, prefix; rewrite postfix_ast_expr, prefix_ast_expr.
  apply ast_postfix_prefix_count.
Qed.

(** For every tree, the postfix and the prefix render are empty or end in
    a space. *)
Theorem renders_empty_or_end_in_space : forall e,
  (postfix e = "" \/ exists b, postfix e = b ++ " ") /\
  (prefix e = "" \/ exists b, prefix e = b ++ " ").
Proof.
  intros e; unfold postfix, prefix; rewrite postfix_ast_expr, prefix_ast_expr.
  apply ast_renders_end_in_space.
Qed.

(** expr reads a prefix of the token list and leaves the rest: the cursor
    only moves forward, and the tokens left are a suffix of the input. *)
Theorem parse_reads_a_prefix : forall ts,
  exists e pre rest, parse ts = Some (e, rest) /\ ts = (pre ++ rest)%list.
Proof.
  intros ts; destruct (parse_total ts) as (e & rest & E).
  destruct (proj1 (parser_advances (expr_fuel ts)) ts e rest E) as [pre Hpre].
  exists e, pre, rest; split; assumption.
Qed.



(** For every input line, the fully parenthesized and the postfix output
    contain every character other than [(], [)] and space the same number
    of times: they differ only in parentheses and spaces. *)
Theorem compl_par_postfix_same_symbols : forall s c,
  c <> "("%char -> c <> ")"%char -> c <> " "%char ->
  count_char c (compl_par (tree_of s)) = count_char c (postfix (tree_of s)).
Proof.
  intros s c H1 H2 H3; unfold compl_par, postfix.
  rewrite pcp_ast_expr, postfix_ast_expr, strip_parens_count by (auto; apply tree_of_leaves_no_paren).
  apply ast_infix_postfix_count; assumption.
Qed.

Lemma compl_par_postfix_same_symbols_witness :
  "a"%char <> "("%char /\ "a"%char <> ")"%char /\ "a"%char <> " "%char /\
  count_char "a" (compl_par (tree_of "(a+a)*a^a")) = count_char "a" (postfix (tree_of "(a+a)*a^a")).
Proof.
  split; [discriminate|split; [discriminate|split; [discriminate|]]].
  apply compl_par_postfix_same_symbols; discriminate.
Defined.



(** A token list that starts with [(] or [^] and has no [)] is left
    entirely unread: expr returns the tree whose only primary is NULL, and
    its three renders are empty. *)
Theorem parse_open_without_close_is_empty : forall t ts,
  (type t = LPAREN \/ type t = EXP) -> Forall (fun u => type u <> RPAREN) (t :: ts) ->
  let e := NEXPR (NEXPRP None NeXPRP1) NeXPR1 in
  parse (t :: ts) = Some (e, t :: ts) /\ compl_par e = "" /\ postfix e = "" /\ prefix e = "".
Proof.
  intros [ty str] ts Ht Hr e; simpl in Ht.
  assert (Ha : ty <> ATOM) by (destruct Ht as [-> | ->]; discriminate).
  unfold parse.
  replace (expr_fuel (mk_token ty str :: ts)) with (S (S (S (4 * List.length ts + 5))))
    by (unfold expr_fuel; simpl; lia).
  cbn [expr exprp]; unfold bindP at 1 2.
  rewrite (exprpp_null_step _ (mk_token ty str) ts Ha Hr).
  cbn [Exprp Expr]; unfold bindP, retP.
  destruct Ht as [-> | ->]; repeat split.
Qed.

Lemma parse_open_without_close_is_empty_witness :
  let e := NEXPR (NEXPRP None NeXPRP1) NeXPR1 in
  parse (lexed_input "(a*(b") = Some (e, lexed_input "(a*(b") /\ compl_par e = "".
Proof.
  destruct (parse_open_without_close_is_empty (mk_token LPAREN "(")
              [mk_token ATOM "a"; mk_token MUL "*"; mk_token LPAREN "("; mk_token ATOM "b"])
    as (H1 & H2 & _); [left; reflexivity|repeat constructor; discriminate|].
  split; [exact H1|exact H2].
Defined.

(** An input line with a character other than a letter, a digit or one of
    [()^*/+-] makes input_lexer return NULL; expr then builds the tree with
    a NULL primary, and all three outputs are empty. *)
Theorem invalid_input_renders_empty : forall s,
  all_chars valid_char s = false ->
  tree_of s = NEXPR (NEXPRP None NeXPRP1) NeXPR1 /\
  compl_par (tree_of s) = "" /\ postfix (tree_of s) = "" /\ prefix (tree_of s) = "".
Proof.
  intros s H; unfold tree_of; rewrite (lexed_input_invalid s H).
  vm_compute; repeat split.
Qed.

Lemma invalid_input_renders_empty_witness :
  compl_par (tree_of "a+b%c") = "" /\ postfix (tree_of "a+b%c") = "".
Proof.
  destruct (invalid_input_renders_empty "a+b%c" eq_refl) as (_ & H1 & H2 & _).
  split; [exact H1|exact H2].
Defined.


